(** * entc: the code-generation driver and the SQL decode templates

    A verification development for two files of the repository:

    - [entc/cmd/entc/entc.go]: the command line driver (the [init]
      argument validator, the [--idtype] flag value, the loader of external
      templates);
    - [entc/gen/template/dialect/sql/decode.tmpl]: the templates that emit
      the [FromRows] methods of every generated entity and of its slice type.

    Go strings are byte sequences: they are modelled as [string] (lists of
    [ascii]).  Go structs whose members depend on the schema are modelled as
    finite maps from member names to values. *)

From Stdlib Require Import ZArith List String Ascii Lia DecimalString.
From stdpp Require Import gmap strings list.

Local Open Scope string_scope.
Local Open Scope list_scope.

(** ** Results of Go calls *)

(** A Go call either returns or panics. *)
Inductive panic := IndexOutOfRange.

Inductive go_result (A : Type) : Type :=
| Return (a : A)
| Panic (p : panic).
Arguments Return {A} a.
Arguments Panic {A} p.

(** A Go [error] is modelled by its message ([err.Error()]); [None] is the
    [nil] error. *)
Definition error := string.

Module Cli.

(** *** The [init] command: [Args] validator (entc.go, lines 38-45) *)

(** [unicode.IsUpper] restricted to the runes a byte can be converted to
    (U+0000 .. U+00FF): the upper-case letters of Latin-1 are [A-Z],
    U+00C0 .. U+00D6 and U+00D8 .. U+00DE. *)
Definition unicode_IsUpper (r : N) : bool :=
  ((0x41 <=? r) && (r <=? 0x5A) || (0xC0 <=? r) && (r <=? 0xD6)
   || (0xD8 <=? r) && (r <=? 0xDE))%N.

(** [rune(b)] for a byte [b]. *)
Definition rune (b : ascii) : N := N_of_ascii b.

Definition uppercase_error : error := "schema names must begin with uppercase".

(** [for _, name := range names { if !unicode.IsUpper(rune(name[0])) { return
    fmt.Errorf(...) } }; return nil].  Indexing [name[0]] in an empty string
    panics. *)
Fixpoint init_Args (names : list string) : go_result (option error) :=
  match names with
  | [] => Return None
  | name :: rest =>
      match name with
      | EmptyString => Panic IndexOutOfRange
      | String b _ =>
          if negb (unicode_IsUpper (rune b)) then Return (Some uppercase_error)
          else init_Args rest
      end
  end.

(** The first byte exists and is an upper-case letter. *)
Definition first_upper (name : string) : bool :=
  match name with
  | EmptyString => false
  | String b _ => unicode_IsUpper (rune b)
  end.

(** *** The [--idtype] flag (entc.go, lines 189-225) *)

(** The constants of [field.Type] that entc.go names.  The package
    [schema/field] declares them; its [String] method is a parameter of the
    development ([type_String] below). *)
Inductive field_Type := TypeInt | TypeInt64 | TypeUint | TypeUint64 | TypeString.

(** [type idType field.Type] *)
Definition idType := field_Type.

(** The closed set of identifier kinds, in the order of the [switch]. *)
Definition id_kinds : list field_Type :=
  [TypeInt; TypeInt64; TypeUint; TypeUint64; TypeString].

Definition invalid_type : error := "invalid type".

(** [field.Type.String], declared in [schema/field]. *)
Class FieldPkg := { type_String : field_Type -> string }.

Section IdType.
Context `{FieldPkg}.

(** [func (t *idType) Set(s string) error]: the new value of [*t] and the
    returned error.  A Go [switch] takes the first case that matches. *)
Definition idType_Set (t : idType) (s : string) : idType * option error :=
  if String.eqb s (type_String TypeInt) then (TypeInt, None)
  else if String.eqb s (type_String TypeInt64) then (TypeInt64, None)
  else if String.eqb s (type_String TypeUint) then (TypeUint, None)
  else if String.eqb s (type_String TypeUint64) then (TypeUint64, None)
  else if String.eqb s (type_String TypeString) then (TypeString, None)
  else (t, Some invalid_type).

(** [idtype = idType(field.TypeInt)]: the value of the flag variable before
    any flag is parsed (entc.go, line 83). *)
Definition default_idtype : idType := TypeInt.

(** What the [generate] command does, as the sequence of the collaborators it
    calls.  Only the calls that matter for the order of configuration and
    schema loading are recorded. *)
Inductive event :=
| EvLoadTemplate (paths : list string)
| EvLoadGraph (path : string) (idtype : field_Type)
| EvGen.

(** The flags of one invocation of [generate]: the values given to
    [--idtype] (each occurrence calls [Set], in order) and to [--template]. *)
Record generate_flags := {
  flag_idtype : list string;
  flag_template : list string
}.

(** Flag parsing: every occurrence of [--idtype] calls [Set] on the flag
    variable; the first error stops the parsing. *)
Fixpoint parse_idtype (t : idType) (occurrences : list string) : idType * option error :=
  match occurrences with
  | [] => (t, None)
  | s :: rest =>
      match idType_Set t s with
      | (t', None) => parse_idtype t' rest
      | (t', Some e) => (t', Some e)
      end
  end.

(** The [Run] function of [generate] (entc.go, lines 92-110), after the
    flags were parsed successfully: [loadTemplate] when [--template] is not
    empty, then [loadGraph] with [cfg.IDType] set from the flag variable,
    then [graph.Gen]. *)
Definition generate_Run (idtype : idType) (template : list string) (path : string) : list event :=
  (if (0 <? length template)%nat then [EvLoadTemplate template] else [])
  ++ [EvLoadGraph path idtype; EvGen].

(** One execution of [entc generate]: cobra parses the flags before it calls
    [Run], and does not call [Run] when a flag value is rejected. *)
Definition generate (fl : generate_flags) (path : string) : list event * option error :=
  match parse_idtype default_idtype (flag_idtype fl) with
  | (_, Some e) => ([], Some e)
  | (t, None) => (generate_Run t (flag_template fl) path, None)
  end.

(** A trace loads a schema when it contains a call of [loadGraph]. *)
Definition loads_schema (tr : list event) : bool :=
  existsb (fun e => match e with EvLoadGraph _ _ => true | _ => false end) tr.

End IdType.

(** The names Go gives to the five kinds ([int], [int64], [uint], [uint64],
    [string]); used to run the definitions on concrete inputs. *)
Definition go_type_String (t : field_Type) : string :=
  match t with
  | TypeInt => "int"
  | TypeInt64 => "int64"
  | TypeUint => "uint"
  | TypeUint64 => "uint64"
  | TypeString => "string"
  end.

Definition go_field_pkg : FieldPkg := {| type_String := go_type_String |}.

(** *** [loadTemplate] (entc.go, lines 139-165) *)

(** What [os.Stat], [ioutil.ReadFile] and [ioutil.ReadDir] see at a path: a
    regular file with its content, or a directory with the names of its
    entries ([ReadDir] returns them sorted by name). *)
Inductive finfo :=
| RegularFile (buf : string)
| Directory (infos : list string).

Abbreviation filesystem := (gmap string finfo).

(** The set of templates associated with a [*template.Template]: a map from
    template names to parse trees (a tree is kept as its text). *)
Abbreviation registry := (gmap string string).

(** Modelled from the spec: the registry of [text/template], which is not
    part of the sources: an explicit mapping from template name to template
    body, where later registrations overwrite earlier ones.  [tmpl_parse]
    is the parser: the definitions of a text, in the order of the text, or
    [None] on a syntax error. *)
Class TemplatePkg := { tmpl_parse : string -> option (list (string * string)) }.

(** [t.AddParseTree(name, tree)] *)
Definition AddParseTree (t : registry) (name tree : string) : registry :=
  <[name := tree]> t.

(** The definitions [defs] added one after the other. *)
Definition add_defs (t : registry) (defs : list (string * string)) : registry :=
  foldl (fun t d => AddParseTree t d.1 d.2) t defs.

(** [t.Parse(text)]: every definition of the text is added to the set. *)
Definition Parse `{TemplatePkg} (t : registry) (text : string) : option registry :=
  match tmpl_parse text with
  | Some defs => Some (add_defs t defs)
  | None => None
  end.

(** [template.New("external")]: no template is associated yet. *)
Definition New : registry := ∅.

(** [filepath.Join(dir, name)], for clean non-empty elements. *)
Definition filepath_Join (dir name : string) : string := dir +:+ "/" +:+ name.

(** Why [failOnErr] ended the process. *)
Inductive exit_cause :=
| StatFailed (path : string)
| ParseFailed (path : string).

Inductive load_result :=
| Loaded (t : registry)
| Exit (c : exit_cause)
| OutOfFuel.

(** The body of the loop [for _, path := range paths], given the function
    [self] for the recursive call. *)
Fixpoint load_paths `{TemplatePkg} (self : list string -> load_result)
    (fs : filesystem) (paths : list string) (t : registry) : load_result :=
  match paths with
  | [] => Loaded t
  | path :: rest =>
      match fs !! path with
      | None => Exit (StatFailed path)
      | Some (RegularFile buf) =>
          match Parse t buf with
          | Some t' => load_paths self fs rest t'
          | None => Exit (ParseFailed path)
          end
      | Some (Directory infos) =>
          (* paths[i] = filepath.Join(path, infos[0].Name()) *)
          let paths' :=
            map (fun i : nat => filepath_Join path (nth 0 infos EmptyString))
                (seq 0 (length infos)) in
          match self paths' with
          | Loaded sub =>
              (* for _, tt := range sub.Templates() { t.AddParseTree(...) } *)
              load_paths self fs rest
                (map_fold (fun name tree t => AddParseTree t name tree) t sub)
          | other => other
          end
      end
  end.

(** [loadTemplate(paths)].  The recursion follows the directories of the
    file system; [fuel] bounds its depth. *)
Fixpoint loadTemplate `{TemplatePkg} (fuel : nat) (fs : filesystem)
    (paths : list string) : load_result :=
  match fuel with
  | O => OutOfFuel
  | S fuel' => load_paths (loadTemplate fuel' fs) fs paths New
  end.

(** A parser for concrete runs: a text [name=body] defines the template
    [name] with the body [body]; a text without [=] is a syntax error. *)
Fixpoint split_eq (s : string) : option (string * string) :=
  match s with
  | EmptyString => None
  | String c rest =>
      if Ascii.eqb c "="%char then Some (EmptyString, rest)
      else match split_eq rest with
           | Some (n, b) => Some (String c n, b)
           | None => None
           end
  end.

Definition toy_template_pkg : TemplatePkg :=
  {| tmpl_parse := fun text =>
       match split_eq text with Some d => Some [d] | None => None end |}.

(** The file system of the examples: the directory [d] holds the files
    [a.tmpl] and [b.tmpl]; the directory [top] holds only the directory
    [sub], which holds the file [x.tmpl]; [one.tmpl] and [two.tmpl] both
    define the template [header]. *)
Definition example_fs : gmap string finfo :=
  list_to_map
    [("d", Directory ["a.tmpl"; "b.tmpl"]);
     ("d/a.tmpl", RegularFile "a=A");
     ("d/b.tmpl", RegularFile "b=B");
     ("top", Directory ["sub"]);
     ("top/sub", Directory ["x.tmpl"]);
     ("top/sub/x.tmpl", RegularFile "x=X");
     ("one.tmpl", RegularFile "header=first");
     ("two.tmpl", RegularFile "header=second")].

End Cli.

Module Decode.

(** *** Descriptors (the data the templates are executed on) *)

(** A field of an entity, as the template sees it: its name and the
    predicates and type names the template asks for.  [gen.Field] computes
    them from the schema; here they are given. *)
Record gen_Field := {
  Name : string;
  IsJSON : bool;
  Nillable : bool;
  IsTime : bool;
  FieldType : string;   (* {{ $f.Type }} *)
  NullType : string     (* {{ $f.NullType }} *)
}.

(** The identifier field: [$.ID.IsString] and [$.ID.Type]. *)
Record gen_ID := {
  IsString : bool;
  IDType : string
}.

(** An entity descriptor ([gen.Type]). *)
Record gen_Type := {
  TypeName : string;    (* {{ $.Name }} *)
  Receiver : string;
  Package : string;
  ID : gen_ID;
  Fields : list gen_Field
}.

(** *** Go values *)

Inductive gval :=
| VNil
| VInt (z : Z)
| VBool (b : bool)
| VString (s : string)
| VBytes (b : string)                 (* []byte *)
| VTime (unix : Z)                    (* time.Time *)
| VNull (valid : bool) (x : gval)     (* sql.NullT{T: x, Valid: valid} *)
| VPtr (x : gval).                    (* a pointer to a cell that holds x *)

(** The members of a struct value, by name.  A member that is absent still
    has the zero value of its type. *)
Abbreviation members := (gmap string gval).

(** The helpers of [entc/gen] that the template calls: [pascal] (from
    [gen.Funcs]) and [Field.NullTypeField], taken by its effect: the value of
    the Go expression it prints, given the value of the scanned member. *)
Class GenPkg := {
  pascal : string -> string;
  NullTypeField : gen_Field -> gval -> gval
}.

(** The Go libraries the emitted code calls.
    [convertAssign ty src] is the conversion [rows.Scan] applies to store
    the column value [src] in a destination of type [ty].
    [json_Unmarshal ty data dest] is [json.Unmarshal(data, &dest)] for a
    destination of type [ty]: the content of the destination afterwards
    and the returned error. *)
Class GoLibs := {
  convertAssign : string -> gval -> gval + error;
  json_Unmarshal : string -> string -> option gval -> option gval * option error
}.

(** [strconv.Itoa] *)
Definition strconv_Itoa (z : Z) : string := NilZero.string_of_int (Z.to_int z).

(** *** The text emitted by [dialect/sql/decode/one] *)

(** The right-hand side of [r.ID = ...] (template line 28). *)
Inductive id_expr :=
| IdItoa       (* strconv.Itoa(v.ID) *)
| IdScanned.   (* v.ID *)

(** The statement emitted for one field (template lines 29-48). *)
Inductive stmt :=
| Unmarshal (f : gen_Field)
    (* if value := v.F; len(value) > 0 {
         if err := json.Unmarshal(value, &r.F); err != nil {
           return fmt.Errorf("unmarshal field <name>: %v", err) } } *)
| AddressOf (f : gen_Field)
    (* r.F = &v.F *)
| IfValid (f : gen_Field)
    (* if v.F.Valid { r.F = new(T); *r.F = <NullTypeField v.F> } *)
| Assign (f : gen_Field).
    (* r.F = <NullTypeField v.F> *)

(** The field a statement was emitted for. *)
Definition stmt_field (s : stmt) : gen_Field :=
  match s with
  | Unmarshal f | AddressOf f | IfValid f | Assign f => f
  end.

(** The emitted method [func (r *T) FromRows(rows *sql.Rows) error]. *)
Record decode_one_fn := {
  scan_var : string;                     (* $scan *)
  scan_struct : list (string * string);  (* var $scan struct { name type ... } *)
  scan_args : list string;               (* rows.Scan(&$scan.name, ...) *)
  id_rhs : id_expr;
  body : list stmt
}.

Section Emit.
Context `{GenPkg}.

(** The name of the struct member of a field: [pascal $f.Name]. *)
Definition member (f : gen_Field) : string := pascal (Name f).

(** The type of the member [ID] of the scanned struct (template line 14):
    [int] when the identifier type is [string], the identifier type
    otherwise. *)
Definition scanned_id_type (T : gen_Type) : string :=
  if IsString (ID T) then "int" else IDType (ID T).

(** Template lines 29-48: [if $f.IsJSON ... else if $f.Nillable ( if
    $f.IsTime ... else ... ) else ...]. *)
Definition emit_field (f : gen_Field) : stmt :=
  if IsJSON f then Unmarshal f
  else if Nillable f then
    (if IsTime f then AddressOf f else IfValid f)
  else Assign f.

(** Execution of the template [dialect/sql/decode/one] on a descriptor. *)
Definition decode_one (T : gen_Type) : decode_one_fn :=
  {| scan_var := "v" +:+ Receiver T;
     scan_struct :=
       ("ID", scanned_id_type T)
       :: map (fun f => (member f, NullType f)) (Fields T);
     scan_args := "ID" :: map (fun f => member f) (Fields T);
     id_rhs := if IsString (ID T) then IdItoa else IdScanned;
     body := map emit_field (Fields T) |}.

End Emit.

(** The four decode strategies. *)
Inductive strategy := JSON | NillableTime | NillableOther | Plain.

Definition strategy_of (s : stmt) : strategy :=
  match s with
  | Unmarshal _ => JSON
  | AddressOf _ => NillableTime
  | IfValid _ => NillableOther
  | Assign _ => Plain
  end.

(** The selector as the specification words it: the first rule that
    applies, in the order JSON-structured, nillable and time-like, nillable
    and not time-like, not nillable. *)
Definition select_strategy_spec (f : gen_Field) : option strategy :=
  fst <$> find (fun rule : strategy * bool => snd rule)
    [(JSON, IsJSON f);
     (NillableTime, Nillable f && IsTime f);
     (NillableOther, Nillable f && negb (IsTime f));
     (Plain, negb (Nillable f))].

(** The guards of the four rules, each with the negation of the guards
    before it: the conditions under which each strategy is the selected one. *)
Definition applies (s : strategy) (f : gen_Field) : bool :=
  match s with
  | JSON => IsJSON f
  | NillableTime => negb (IsJSON f) && Nillable f && IsTime f
  | NillableOther => negb (IsJSON f) && Nillable f && negb (IsTime f)
  | Plain => negb (IsJSON f) && negb (Nillable f)
  end.

(** *** Execution of the emitted code *)

(** The errors of [rows.Scan] ([database/sql]): the number of destinations
    differs from the number of columns, or a column cannot be converted. *)
Inductive sql_error :=
| ArityMismatch (ncols ndest : nat)
| ColumnError (index : nat) (cause : error).

(** The errors the emitted code returns: an error of [rows.Scan], returned
    as it is, or the error [fmt.Errorf] builds, given by its message. *)
Inductive go_error :=
| SqlError (e : sql_error)
| ErrorString (msg : string).

(** How a method with a pointer receiver ends: [return nil] or [return err],
    with the state the receiver is left in.  [IllTyped] stands for member
    accesses that the Go compiler rejects (a member that is not declared, or
    that has no [Valid] member, no length, or is not an [int]). *)
Inductive outcome (S : Type) : Type :=
| Success (s : S)
| Failure (e : go_error) (s : S)
| IllTyped.
Arguments Success {S} s.
Arguments Failure {S} e s.
Arguments IllTyped {S}.

(** The state the receiver is left in, when the method returns. *)
Definition final_state {S : Type} (o : outcome S) : option S :=
  match o with
  | Success s | Failure _ s => Some s
  | IllTyped => None
  end.

(** [fmt.Errorf("unmarshal field <name>: %v", err)] *)
Definition unmarshal_error (name : string) (err : error) : go_error :=
  ErrorString ("unmarshal field " +:+ name +:+ ": " +:+ err).

(** Assignment through [&r.F] by a callee: the member holds what the callee
    left in it. *)
Definition store (m : string) (x : option gval) (r : members) : members :=
  match x with
  | Some x => <[m := x]> r
  | None => delete m r
  end.

Section Exec.
Context `{GenPkg} `{GoLibs}.

(** The type each argument [&v.name] of [rows.Scan] points to, from the
    declaration of the struct; [None] if a name is not declared. *)
Definition typed_args (fn : decode_one_fn) : option (list (string * string)) :=
  mapM (fun a => (fun ty => (a, ty)) <$> (list_to_map (scan_struct fn) : gmap string string) !! a)
       (scan_args fn).

(** [rows.Scan], after the check of the number of destinations: the columns
    are converted and stored from left to right; the first failure is
    reported with its column index. *)
Fixpoint scan_columns (dests : list (string * string)) (cols : list gval)
    (index : nat) (v : members) : members + sql_error :=
  match dests, cols with
  | (a, ty) :: dests', c :: cols' =>
      match convertAssign ty c with
      | inl x => scan_columns dests' cols' (S index) (<[a := x]> v)
      | inr e => inr (ColumnError index e)
      end
  | _, _ => inl v
  end.

(** [rows.Scan(dest...)] on the current row [cols], into a struct whose
    members are all zero. *)
Definition rows_Scan (dests : list (string * string)) (cols : list gval)
    : members + sql_error :=
  if decide (length dests = length cols) then scan_columns dests cols 0 ∅
  else inr (ArityMismatch (length cols) (length dests)).

(** [r.ID = strconv.Itoa(v.ID)] or [r.ID = v.ID]. *)
Definition exec_id (e : id_expr) (v r : members) : option members :=
  match e, v !! "ID" with
  | IdItoa, Some (VInt z) => Some (<["ID" := VString (strconv_Itoa z)]> r)
  | IdScanned, Some x => Some (<["ID" := x]> r)
  | _, _ => None
  end.

(** One emitted statement, on the scanned struct [v] and the receiver [r]. *)
Definition exec_stmt (s : stmt) (v r : members) : outcome members :=
  match s with
  | Unmarshal f =>
      match v !! member f with
      | Some (VBytes value) =>
          if (0 <? String.length value)%nat then
            match json_Unmarshal (FieldType f) value (r !! member f) with
            | (x, None) => Success (store (member f) x r)
            | (x, Some err) =>
                Failure (unmarshal_error (Name f) err) (store (member f) x r)
            end
          else Success r
      | _ => IllTyped
      end
  | AddressOf f =>
      match v !! member f with
      | Some x => Success (<[member f := VPtr x]> r)
      | None => IllTyped
      end
  | IfValid f =>
      match v !! member f with
      | Some (VNull valid x) =>
          if valid
          then Success (<[member f := VPtr (NullTypeField f (VNull valid x))]> r)
          else Success r
      | _ => IllTyped
      end
  | Assign f =>
      match v !! member f with
      | Some x => Success (<[member f := NullTypeField f x]> r)
      | None => IllTyped
      end
  end.

(** The statements of the fields, in order, then [return nil]; a [return]
    inside a statement ends the method. *)
Fixpoint exec_body (ss : list stmt) (v r : members) : outcome members :=
  match ss with
  | [] => Success r
  | s :: rest =>
      match exec_stmt s v r with
      | Success r' => exec_body rest v r'
      | other => other
      end
  end.

(** The emitted method, on the current row [cols] of the cursor and the
    receiver [r]. *)
Definition run_decode_one (fn : decode_one_fn) (cols : list gval) (r : members)
    : outcome members :=
  match typed_args fn with
  | None => IllTyped
  | Some dests =>
      match rows_Scan dests cols with
      | inr e => Failure (SqlError e) r
      | inl v =>
          match exec_id (id_rhs fn) v r with
          | Some r' => exec_body (body fn) v r'
          | None => IllTyped
          end
      end
  end.

(** [(r *T) FromRows(rows)] of the entity [T]. *)
Definition FromRows (T : gen_Type) (cols : list gval) (r : members)
    : outcome members :=
  run_decode_one (decode_one T) cols r.

(** The method emitted by [dialect/sql/decode/many]:
    [for rows.Next() { v := &T{}; if err := v.FromRows(rows); err != nil {
    return err }; r.append(v) }; return nil], where [r.append(v)] stands for the
    append of [v] to the slice the receiver points to.
    The cursor is the list of the rows [rows.Next] still yields; the
    receiver is the slice. *)
Fixpoint FromRows_many (T : gen_Type) (rows : list (list gval))
    (r : list members) : outcome (list members) :=
  match rows with
  | [] => Success r
  | cols :: rows' =>
      match FromRows T cols ∅ with
      | Success v => FromRows_many T rows' (r ++ [v])
      | Failure e _ => Failure e r
      | IllTyped => IllTyped
      end
  end.

End Exec.

(** *** Instances to run the emitted code on concrete rows *)

(** Upper-case the first byte of an ASCII name. *)
Definition upper_first (s : string) : string :=
  match s with
  | EmptyString => EmptyString
  | String c rest =>
      let n := nat_of_ascii c in
      String (if ((97 <=? n) && (n <=? 122))%nat then ascii_of_nat (n - 32) else c) rest
  end.

(** [NullTypeField] as the extraction of the value of a wrapper, and the
    identity on other values. *)
Definition unwrap (x : gval) : gval :=
  match x with
  | VNull _ y => y
  | _ => x
  end.

Definition toy_gen_pkg : GenPkg :=
  {| pascal := upper_first; NullTypeField := fun _ => unwrap |}.

(** A small [database/sql] and [encoding/json]: a destination whose type
    starts with [sql.Null] accepts every column (NULL gives [Valid = false]);
    any other destination rejects NULL and takes other values as they are.
    A JSON text is accepted when it starts with an opening bracket, and
    is then kept as a string value. *)
Definition toy_go_libs : GoLibs :=
  {| convertAssign := fun ty src =>
       if String.prefix "sql.Null" ty then
         match src with
         | VNil => inl (VNull false VNil)
         | _ => inl (VNull true src)
         end
       else
         match src with
         | VNil => inr ("converting NULL to " +:+ ty +:+ " is unsupported")
         | _ => inl src
         end;
     json_Unmarshal := fun ty data dest =>
       if String.prefix "[" data then (Some (VString data), None)
       else (dest, Some "invalid character") |}.

(** An entity to run the emitted code on: a user with a string identifier,
    a plain field, a nillable field, a JSON field and a nillable time. *)
Definition age_field : gen_Field :=
  {| Name := "age"; IsJSON := false; Nillable := false; IsTime := false;
     FieldType := "int"; NullType := "sql.NullInt64" |}.

Definition nick_field : gen_Field :=
  {| Name := "nick"; IsJSON := false; Nillable := true; IsTime := false;
     FieldType := "string"; NullType := "sql.NullString" |}.

Definition tags_field : gen_Field :=
  {| Name := "tags"; IsJSON := true; Nillable := false; IsTime := false;
     FieldType := "[]string"; NullType := "[]byte" |}.

Definition seen_field : gen_Field :=
  {| Name := "seen"; IsJSON := false; Nillable := true; IsTime := true;
     FieldType := "time.Time"; NullType := "time.Time" |}.

Definition example_user : gen_Type :=
  {| TypeName := "User"; Receiver := "u"; Package := "user";
     ID := {| IsString := true; IDType := "string" |};
     Fields := [age_field; nick_field; tags_field; seen_field] |}.

(** The same entity with an [int64] identifier. *)
Definition example_user64 : gen_Type :=
  {| TypeName := "User"; Receiver := "u"; Package := "user";
     ID := {| IsString := false; IDType := "int64" |};
     Fields := [age_field; nick_field; tags_field; seen_field] |}.

(** Rows of the table of users: two rows that decode, and one whose JSON
    column does not parse. *)
Definition row_ann : list gval :=
  [VInt 42; VInt 30; VString "ann"; VBytes "[1]"; VTime 7].

Definition row_bob : list gval :=
  [VInt 43; VInt 31; VNil; VBytes EmptyString; VTime 8].

Definition row_bad : list gval :=
  [VInt 44; VInt 32; VString "eve"; VBytes "oops"; VTime 9].

(** The record a successful decode leaves, the empty record otherwise. *)
Definition decoded (o : outcome members) : members :=
  match o with
  | Success r => r
  | _ => ∅
  end.

End Decode.

(** ** Facts about the driver *)

Module CliFacts.
Import Cli.

(** *** The [init] argument validator *)

Lemma init_Args_app_upper (pre rest : list string) :
  forallb first_upper pre = true -> init_Args (pre ++ rest) = init_Args rest.
Proof.
  induction pre as [|name pre IH]; simpl; [done|].
  intros [Hname Hpre]%andb_true_iff.
  destruct name as [|b name]; simpl in *; [done|].
  rewrite Hname. simpl. auto.
Qed.

Lemma init_Args_nonempty (names : list string) :
  Forall (fun name => name <> EmptyString) names ->
  init_Args names
  = Return (if forallb first_upper names then None else Some uppercase_error).
Proof.
  induction 1 as [|name names Hname _ IH]; simpl; [done|].
  destruct name as [|b name]; [done|]. simpl.
  destruct (unicode_IsUpper (rune b)); simpl; [exact IH | done].
Qed.

Lemma init_Args_panic_inv (names : list string) :
  init_Args names = Panic IndexOutOfRange ->
  exists pre post,
    names = pre ++ EmptyString :: post /\ forallb first_upper pre = true.
Proof.
  induction names as [|name names IH]; simpl; [done|].
  destruct name as [|b name].
  - intros _. by exists [], names.
  - destruct (unicode_IsUpper (rune b)) eqn:Hb; simpl; [|done].
    intros (pre & post & -> & Hpre)%IH.
    exists (String b name :: pre), post. simpl. by rewrite Hb, Hpre.
Qed.

(** C10, as stated, fails: the argument list made of [user] and of the empty
    string contains the empty string, and the validator does not panic on
    it: it returns the validation error at the first name, and the empty
    string is never indexed. *)
Lemma init_Args_empty_string_not_reached :
  In EmptyString ["user"; EmptyString]
  /\ init_Args ["user"; EmptyString] = Return (Some uppercase_error)
  /\ init_Args ["user"; EmptyString] <> Panic IndexOutOfRange.
Proof. split_and!; [right; left; reflexivity | reflexivity | discriminate]. Qed.

(** C10, amended: the validator indexes the first byte of a name without
    checking that the name is not empty.  It panics (index out of range)
    exactly on the argument lists in which an empty string comes after names
    that all begin with an upper-case letter; on a list of non-empty names
    it returns the validation error exactly when the first byte of some name
    is not an upper-case letter. *)
Theorem init_Args_panics_or_validates (pre post names : list string)
    (Hpre : forallb first_upper pre = true)
    (Hnames : Forall (fun name => name <> EmptyString) names) :
  init_Args (pre ++ EmptyString :: post) = Panic IndexOutOfRange
  /\ init_Args names
     = Return (if forallb first_upper names then None else Some uppercase_error)
  /\ forall args, init_Args args = Panic IndexOutOfRange <->
       exists pre' post', args = pre' ++ EmptyString :: post'
                          /\ forallb first_upper pre' = true.
Proof.
  split; [|split].
  - by rewrite init_Args_app_upper.
  - by apply init_Args_nonempty.
  - intros args. split; [apply init_Args_panic_inv|].
    intros (pre' & post' & -> & Hpre'). by rewrite init_Args_app_upper.
Qed.

Lemma init_Args_panics_or_validates_witness :
  init_Args (["User"; "Group"] ++ EmptyString :: ["pet"]) = Panic IndexOutOfRange
  /\ init_Args ["User"; "pet"] = Return (Some uppercase_error).
Proof.
  destruct (init_Args_panics_or_validates ["User"; "Group"] ["pet"] ["User"; "pet"])
    as (Hpanic & Hret & _).
  - reflexivity.
  - repeat constructor; discriminate.
  - split; [exact Hpanic | exact Hret].
Defined.


(** *** The [--idtype] flag *)

(** Case analysis on the next comparison of the [switch]. *)
Ltac switch_case :=
  match goal with
  | |- context [String.eqb ?a ?b] => destruct (String.eqb_spec a b)
  end.

Section IdTypeFacts.
Context `{FieldPkg}.

Lemma idType_Set_accepts (t : idType) (s : string) :
  (idType_Set t s).2 = None -> type_String (idType_Set t s).1 = s.
Proof.
  unfold idType_Set.
  repeat (switch_case; [simpl; congruence|]).
  simpl. congruence.
Qed.

Lemma idType_Set_rejects (t : idType) (s : string) :
  (forall k, s <> type_String k) -> idType_Set t s = (t, Some invalid_type).
Proof.
  intros Hs. unfold idType_Set.
  repeat (switch_case; [exfalso; eapply Hs; eassumption|]).
  done.
Qed.

Lemma idType_Set_error (t : idType) (s : string) (e : error) :
  (idType_Set t s).2 = Some e -> e = invalid_type.
Proof.
  unfold idType_Set.
  repeat (switch_case; [simpl; congruence|]).
  simpl. congruence.
Qed.

Lemma parse_idtype_rejects (t : idType) (occurrences : list string) (s : string) :
  In s occurrences -> (forall k, s <> type_String k) ->
  (parse_idtype t occurrences).2 = Some invalid_type.
Proof.
  intros Hin Hs. revert t.
  induction occurrences as [|s' rest IH]; intros t; simpl; [done|].
  destruct (idType_Set t s') as [t' [e|]] eqn:Hset.
  - simpl. f_equal. apply (idType_Set_error t s'). by rewrite Hset.
  - destruct Hin as [->|Hin]; [|by apply IH].
    rewrite idType_Set_rejects in Hset by done. done.
Qed.

(** C7: [Set] accepts exactly the names of the five kinds [int], [int64],
    [uint], [uint64] and [string] ([field.TypeInt] is the kind the
    specification calls int32-equivalent) and stores the kind that was
    named; any other string leaves the flag variable as it was and is
    answered by the error [invalid type]; [generate] then ends with this
    error before [Run], hence before [loadGraph], is called.  Without the
    flag, the kind is [field.TypeInt]. *)
Theorem idType_Set_closed_set (t : idType) (k : field_Type) (s path : string)
    (fl : generate_flags)
    (Hinj : forall a b, type_String a = type_String b -> a = b)
    (Hs : forall k', s <> type_String k')
    (Hfl : In s (flag_idtype fl)) :
  In k id_kinds
  /\ idType_Set t (type_String k) = (k, None)
  /\ (forall s', (idType_Set t s').2 = None <->
                 exists k', In k' id_kinds /\ s' = type_String k')
  /\ idType_Set t s = (t, Some invalid_type)
  /\ generate fl path = ([], Some invalid_type)
  /\ loads_schema (generate fl path).1 = false
  /\ default_idtype = TypeInt
  /\ generate {| flag_idtype := []; flag_template := [] |} path
     = ([EvLoadGraph path TypeInt; EvGen], None).
Proof.
  assert (Hall : forall k', In k' id_kinds).
  { intros k'. unfold id_kinds. destruct k'; simpl; tauto. }
  assert (Hacc : forall s', (idType_Set t s').2 = None <->
                 exists k', In k' id_kinds /\ s' = type_String k').
  { intros s'. split.
    - intros Hok. exists (idType_Set t s').1.
      split; [apply Hall | symmetry; by apply idType_Set_accepts].
    - intros (k' & _ & ->). unfold idType_Set.
      destruct k'; repeat (switch_case; [done|]); done. }
  assert (Hgen : generate fl path = ([], Some invalid_type)).
  { unfold generate.
    pose proof (parse_idtype_rejects default_idtype _ _ Hfl Hs) as Hp.
    destruct (parse_idtype default_idtype (flag_idtype fl)) as [t' [e|]];
      simpl in Hp; [congruence | done]. }
  split_and!.
  - apply Hall.
  - assert (Hok : (idType_Set t (type_String k)).2 = None).
    { apply Hacc. eauto. }
    pose proof (idType_Set_accepts t _ Hok) as Hname. apply Hinj in Hname.
    destruct (idType_Set t (type_String k)) as [k0 e]; simpl in *.
    by subst.
  - exact Hacc.
  - by apply idType_Set_rejects.
  - exact Hgen.
  - by rewrite Hgen.
  - reflexivity.
  - reflexivity.
Qed.

End IdTypeFacts.

Lemma idType_Set_closed_set_witness :
  @idType_Set go_field_pkg TypeInt "uint64" = (TypeUint64, None)
  /\ @idType_Set go_field_pkg TypeInt "int32" = (TypeInt, Some invalid_type)
  /\ @generate go_field_pkg
       {| flag_idtype := ["int64"; "int32"]; flag_template := [] |} "./ent/schema"
     = ([], Some invalid_type).
Proof.
  destruct (@idType_Set_closed_set go_field_pkg TypeInt TypeUint64 "int32"
              "./ent/schema"
              {| flag_idtype := ["int64"; "int32"]; flag_template := [] |})
    as (_ & Hacc & _ & Hrej & Hgen & _).
  - intros [] []; simpl; intros Heq; solve [reflexivity | discriminate Heq].
  - intros []; simpl; discriminate.
  - simpl. right. left. reflexivity.
  - split; [exact Hacc | split; [exact Hrej | exact Hgen]].
Defined.


(** *** The loader of external templates *)

Lemma map_fold_AddParseTree (t sub : gmap string string) :
  map_fold (fun name tree t => AddParseTree t name tree) t sub = sub ∪ t.
Proof.
  apply (map_fold_weak_ind (fun r (m : gmap string string) => r = m ∪ t)).
  - by rewrite (left_id_L ∅ (∪)).
  - intros name tree m r _ ->. unfold AddParseTree. by rewrite insert_union_l.
Qed.

Lemma add_defs_app (t : gmap string string) (l1 l2 : list (string * string)) :
  add_defs t (l1 ++ l2) = add_defs (add_defs t l1) l2.
Proof. unfold add_defs. apply foldl_app. Qed.

Lemma add_defs_not_defined (defs : list (string * string)) (t : gmap string string)
    (name : string) :
  name ∉ defs.*1 -> add_defs t defs !! name = t !! name.
Proof.
  revert t. induction defs as [|[n b] defs IH]; intros t Hnot; [done|].
  simpl in Hnot. apply not_elem_of_cons in Hnot as [Hne Hnot].
  change (add_defs (AddParseTree t n b) defs !! name = t !! name).
  rewrite IH by done. unfold AddParseTree. by rewrite lookup_insert_ne.
Qed.

Lemma add_defs_last_wins (t : gmap string string)
    (before after : list (string * string)) (name body : string) :
  name ∉ after.*1 ->
  add_defs t (before ++ (name, body) :: after) !! name = Some body.
Proof.
  intros Hnot. rewrite add_defs_app.
  change (add_defs (AddParseTree (add_defs t before) name body) after !! name
          = Some body).
  rewrite add_defs_not_defined by done.
  unfold AddParseTree. by rewrite lookup_insert_eq.
Qed.

Section LoadFacts.
Context `{TemplatePkg}.

Lemma load_paths_files (self : list string -> load_result)
    (fs : gmap string finfo) (paths : list string)
    (dss : list (list (string * string))) (t : gmap string string) :
  Forall2 (fun path defs => exists buf,
             fs !! path = Some (RegularFile buf) /\ tmpl_parse buf = Some defs)
          paths dss ->
  load_paths self fs paths t = Loaded (add_defs t (concat dss)).
Proof.
  intros Hfiles. revert t.
  induction Hfiles as [|path defs paths dss (buf & Hstat & Hparse) _ IH];
    intros t; simpl; [done|].
  rewrite Hstat. unfold Parse. rewrite Hparse.
  rewrite IH. by rewrite add_defs_app.
Qed.

Lemma load_paths_app (self : list string -> load_result)
    (fs : gmap string finfo) (paths1 paths2 : list string)
    (t t1 : gmap string string) :
  load_paths self fs paths1 t = Loaded t1 ->
  load_paths self fs (paths1 ++ paths2) t = load_paths self fs paths2 t1.
Proof.
  revert t. induction paths1 as [|path paths1 IH]; intros t; simpl.
  - congruence.
  - destruct (fs !! path) as [[buf|infos]|]; [| |done].
    + destruct (Parse t buf); [apply IH | done].
    + destruct (self _); try done. apply IH.
Qed.

Lemma load_paths_single_entry (self : list string -> load_result)
    (fs : gmap string finfo) (d e : string) (t : gmap string string) :
  fs !! d = Some (Directory [e]) ->
  load_paths self fs [d] t
  = match self [filepath_Join d e] with
    | Loaded sub => Loaded (sub ∪ t)
    | other => other
    end.
Proof.
  intros Hdir. cbn [load_paths]. rewrite Hdir. cbn [length seq map nth].
  destruct (self [filepath_Join d e]); try done.
  by rewrite map_fold_AddParseTree.
Qed.

(** More fuel does not change a result that was reached. *)
Lemma load_paths_mono (self self' : list string -> load_result)
    (fs : gmap string finfo) (paths : list string) (t : gmap string string) :
  (forall ps, self ps <> OutOfFuel -> self' ps = self ps) ->
  load_paths self fs paths t <> OutOfFuel ->
  load_paths self' fs paths t = load_paths self fs paths t.
Proof.
  intros Hself. revert t.
  induction paths as [|path paths IH]; intros t Hres; simpl in *; [done|].
  destruct (fs !! path) as [[buf|infos]|]; [| |done].
  - destruct (Parse t buf); [by apply IH | done].
  - destruct (self _) as [sub| |] eqn:Hsub.
    + rewrite Hself by congruence. rewrite Hsub. by apply IH.
    + rewrite Hself by congruence. by rewrite Hsub.
    + done.
Qed.

Lemma loadTemplate_fuel_mono (fuel : nat) (fs : gmap string finfo)
    (paths : list string) :
  loadTemplate fuel fs paths <> OutOfFuel ->
  loadTemplate (S fuel) fs paths = loadTemplate fuel fs paths.
Proof.
  revert paths. induction fuel as [|fuel IH]; intros paths Hres; [done|].
  change (load_paths (loadTemplate (S fuel) fs) fs paths New
          = load_paths (loadTemplate fuel fs) fs paths New).
  apply load_paths_mono; [|exact Hres].
  intros ps Hps. by apply IH.
Qed.

(** C8, amended: every listed file is parsed and its definitions are added
    to the set, in the order of the list, a later definition of a name
    replacing an earlier one, and no other name is defined.  A directory is
    loaded by a recursive call of the loader on paths built from its entries,
    and the templates of that call are added to the set, replacing the
    earlier ones of the same name: loading a directory whose only entry is
    [e] is loading [e] itself, be it a file or a directory, so the loading is
    not shallow. *)
Theorem loadTemplate_files_and_descent (fuel : nat) (fs : gmap string finfo)
    (paths : list string) (dss : list (list (string * string))) (d e : string)
    (Hfiles : Forall2 (fun path defs => exists buf,
                 fs !! path = Some (RegularFile buf) /\ tmpl_parse buf = Some defs)
              paths dss)
    (Hdir : fs !! d = Some (Directory [e])) :
  loadTemplate (S fuel) fs paths = Loaded (add_defs New (concat dss))
  /\ (forall before after name body,
        concat dss = before ++ (name, body) :: after ->
        name ∉ after.*1 ->
        add_defs New (concat dss) !! name = Some body)
  /\ (forall name, name ∉ (concat dss).*1 ->
        add_defs New (concat dss) !! name = None)
  /\ loadTemplate (S (S fuel)) fs [d]
     = loadTemplate (S fuel) fs [filepath_Join d e]
  /\ loadTemplate (S (S fuel)) fs (paths ++ [d])
     = match loadTemplate (S fuel) fs [filepath_Join d e] with
       | Loaded sub => Loaded (sub ∪ add_defs New (concat dss))
       | other => other
       end.
Proof.
  split_and!.
  - simpl. by apply load_paths_files.
  - intros before after name body -> Hnot. by apply add_defs_last_wins.
  - intros name Hnot. by rewrite add_defs_not_defined.
  - change (loadTemplate (S (S fuel)) fs [d])
      with (load_paths (loadTemplate (S fuel) fs) fs [d] New).
    rewrite (load_paths_single_entry _ fs d e) by done.
    destruct (loadTemplate (S fuel) fs [filepath_Join d e]) as [sub| |]; try done.
    unfold New. by rewrite (right_id_L ∅ (∪)).
  - change (loadTemplate (S (S fuel)) fs (paths ++ [d]))
      with (load_paths (loadTemplate (S fuel) fs) fs (paths ++ [d]) New).
    rewrite (load_paths_app _ fs paths [d] New (add_defs New (concat dss)))
      by by apply load_paths_files.
    by apply load_paths_single_entry.
Qed.

End LoadFacts.

(** C8, as stated, fails on directories.  The file [d/b.tmpl] lies directly
    inside [d] and defines the template [b], and loading [d] does not load
    it: every path is built from the name of the first entry.  The template
    [x] is defined only in a file of the subdirectory [top/sub], and loading
    [top] loads it.  (By [loadTemplate_fuel_mono] more fuel gives the same
    results.) *)
Lemma loadTemplate_directory_counterexample :
  example_fs !! "d" = Some (Directory ["a.tmpl"; "b.tmpl"])
  /\ example_fs !! "d/b.tmpl" = Some (RegularFile "b=B")
  /\ @tmpl_parse toy_template_pkg "b=B" = Some [("b", "B")]
  /\ @loadTemplate toy_template_pkg 3 example_fs ["d"] = Loaded {[ "a" := "A" ]}
  /\ ({[ "a" := "A" ]} : gmap string string) !! "b" = None
  /\ example_fs !! "top" = Some (Directory ["sub"])
  /\ example_fs !! "top/sub" = Some (Directory ["x.tmpl"])
  /\ @loadTemplate toy_template_pkg 3 example_fs ["top"] = Loaded {[ "x" := "X" ]}.
Proof. split_and!; vm_compute; reflexivity. Qed.

Lemma loadTemplate_files_and_descent_witness :
  @loadTemplate toy_template_pkg 2 example_fs ["one.tmpl"; "two.tmpl"]
  = Loaded (add_defs New [("header", "first"); ("header", "second")])
  /\ add_defs New [("header", "first"); ("header", "second")] !! "header"
     = Some "second"
  /\ @loadTemplate toy_template_pkg 3 example_fs ["top"]
     = @loadTemplate toy_template_pkg 2 example_fs ["top/sub"].
Proof.
  destruct (@loadTemplate_files_and_descent toy_template_pkg 1 example_fs
              ["one.tmpl"; "two.tmpl"]
              [[("header", "first")]; [("header", "second")]] "top" "sub")
    as (Hload & Hlast & _ & Hdesc & _).
  - repeat constructor.
    + exists "header=first". split; reflexivity.
    + exists "header=second". split; reflexivity.
  - reflexivity.
  - split; [exact Hload | split; [|exact Hdesc]].
    apply (Hlast [("header", "first")] [] "header" "second"); [reflexivity|].
    simpl. apply not_elem_of_nil.
Defined.

End CliFacts.

(** ** Facts about the emitted decode methods *)

Module DecodeFacts.
Import Decode.

Lemma store_lookup_eq (m : string) (x : option gval) (r : gmap string gval) :
  store m x r !! m = x.
Proof.
  destruct x; simpl; [apply lookup_insert_eq | apply lookup_delete_eq].
Qed.

Lemma store_lookup_ne (m m' : string) (x : option gval) (r : gmap string gval) :
  m <> m' -> store m x r !! m' = r !! m'.
Proof.
  intros Hne. destruct x; simpl;
    [by apply lookup_insert_ne | by apply lookup_delete_ne].
Qed.

Section DecodeOne.
Context `{GenPkg} `{GoLibs}.

(** **** The destinations of the emitted [rows.Scan] *)

Lemma typed_args_declared (decl : list (string * string)) (args : list string) :
  args ⊆ decl.*1 ->
  exists dests,
    mapM (fun a => (fun ty => (a, ty)) <$> (list_to_map decl : gmap string string) !! a) args
    = Some dests
    /\ dests.*1 = args.
Proof.
  induction args as [|a args IH]; intros Hsub.
  - by exists [].
  - destruct IH as (dests & Hdests & Hfst); [set_solver|].
    assert (Ha : a ∈ decl.*1) by set_solver.
    assert (is_Some ((list_to_map decl : gmap string string) !! a)) as [ty Hty].
    { apply not_eq_None_Some. intros Hnone.
      by apply not_elem_of_list_to_map in Hnone. }
    exists ((a, ty) :: dests). split; [|by rewrite fmap_cons, Hfst].
    cbn. rewrite Hty. cbn. by rewrite Hdests.
Qed.

Lemma typed_args_nodup (decl : list (string * string)) :
  NoDup decl.*1 ->
  mapM (fun a => (fun ty => (a, ty)) <$> (list_to_map decl : gmap string string) !! a) decl.*1
  = Some decl.
Proof.
  intros Hnodup. apply mapM_Some.
  apply Forall2_fmap_l, Forall_Forall2_diag, Forall_forall.
  intros [a ty] Hin. simpl.
  by rewrite (elem_of_list_to_map_1 (M := gmap string) decl a ty Hnodup Hin).
Qed.

Lemma scan_struct_names (T : gen_Type) :
  (scan_struct (decode_one T)).*1 = scan_args (decode_one T).
Proof.
  simpl. f_equal. rewrite <- list_fmap_compose. done.
Qed.

Lemma typed_args_decode_one (T : gen_Type) :
  exists dests,
    typed_args (decode_one T)
    = Some (("ID", scanned_id_type T) :: dests)
    /\ dests.*1 = map member (Fields T).
Proof.
  destruct (typed_args_declared (scan_struct (decode_one T)) (scan_args (decode_one T)))
    as (dests & Hdests & Hfst).
  { by rewrite scan_struct_names. }
  unfold typed_args. rewrite Hdests.
  destruct dests as [|[a ty] dests]; [done|].
  simpl in Hfst. injection Hfst as -> Hfst.
  exists dests. split; [|done].
  apply mapM_Some in Hdests. apply Forall2_cons_1 in Hdests as [Hhd _].
  simpl in Hhd. rewrite lookup_insert_eq in Hhd. simpl in Hhd. congruence.
Qed.


(** **** [rows.Scan] *)

Lemma scan_columns_other (dests : list (string * string)) (cols : list gval)
    (index : nat) (v0 v : gmap string gval) (a : string) :
  scan_columns dests cols index v0 = inl v -> a ∉ dests.*1 -> v !! a = v0 !! a.
Proof.
  revert cols index v0.
  induction dests as [|[a' ty] dests IH]; intros cols index v0 Hscan Hnot.
  - simpl in Hscan. congruence.
  - destruct cols as [|c cols]; simpl in Hscan; [congruence|].
    rewrite fmap_cons in Hnot. apply not_elem_of_cons in Hnot as [Hne Hnot].
    destruct (convertAssign ty c) as [x|e]; [|done].
    rewrite (IH _ _ _ Hscan Hnot). by apply lookup_insert_ne.
Qed.

Lemma scan_columns_lookup (dests : list (string * string)) (cols : list gval)
    (index : nat) (v0 v : gmap string gval) (j : nat) (a ty : string) (c : gval) :
  scan_columns dests cols index v0 = inl v ->
  NoDup dests.*1 ->
  dests !! j = Some (a, ty) -> cols !! j = Some c ->
  exists x, convertAssign ty c = inl x /\ v !! a = Some x.
Proof.
  revert cols index v0 j.
  induction dests as [|[a' ty'] dests IH]; intros cols index v0 j Hscan Hnodup Hj Hc.
  - done.
  - destruct cols as [|c' cols]; [done|]. simpl in Hscan.
    rewrite fmap_cons in Hnodup. apply NoDup_cons in Hnodup as [Hnot Hnodup].
    simpl in Hnot.
    destruct (convertAssign ty' c') as [x|e] eqn:Hconv; [|done].
    destruct j as [|j]; simpl in Hj, Hc.
    + injection Hj as -> ->. injection Hc as ->.
      exists x. split; [done|].
      rewrite (scan_columns_other _ _ _ _ _ _ Hscan Hnot).
      apply lookup_insert_eq.
    + by eapply IH.
Qed.

Lemma rows_Scan_length (dests : list (string * string)) (cols : list gval)
    (v : gmap string gval) :
  rows_Scan dests cols = inl v -> length dests = length cols.
Proof. unfold rows_Scan. by case_decide. Qed.

Lemma rows_Scan_arity (dests : list (string * string)) (cols : list gval) :
  length dests <> length cols ->
  rows_Scan dests cols = inr (ArityMismatch (length cols) (length dests)).
Proof. unfold rows_Scan. by case_decide. Qed.

(** **** The statements of the fields *)

Lemma exec_stmt_other (s : stmt) (v r r' : gmap string gval) (m : string) :
  final_state (exec_stmt s v r) = Some r' ->
  m <> member (stmt_field s) -> r' !! m = r !! m.
Proof.
  intros Hfinal Hne.
  destruct s as [f|f|f|f]; simpl in *.
  - destruct (v !! member f) as [[]|]; try done.
    destruct (0 <? String.length b)%nat; [|simpl in *; congruence].
    destruct (json_Unmarshal _ _ _) as [x [err|]]; simpl in *;
      injection Hfinal as <-; by apply store_lookup_ne.
  - destruct (v !! member f); [|done]. simpl in *.
    injection Hfinal as <-. by apply lookup_insert_ne.
  - destruct (v !! member f) as [[]|]; try done.
    destruct valid; simpl in *; injection Hfinal as <-;
      [by apply lookup_insert_ne | done].
  - destruct (v !! member f); [|done]. simpl in *.
    injection Hfinal as <-. by apply lookup_insert_ne.
Qed.

Lemma exec_body_other (ss : list stmt) (v r r' : gmap string gval) (m : string) :
  final_state (exec_body ss v r) = Some r' ->
  m ∉ map (fun s => member (stmt_field s)) ss -> r' !! m = r !! m.
Proof.
  revert r. induction ss as [|s ss IH]; intros r Hfinal Hnot; simpl in *.
  - congruence.
  - apply not_elem_of_cons in Hnot as [Hne Hnot].
    destruct (exec_stmt s v r) as [r1|e r1|] eqn:Hs; [| |done].
    + rewrite (IH _ Hfinal Hnot).
      apply (exec_stmt_other s v); [by rewrite Hs | done].
    + apply (exec_stmt_other s v); [by rewrite Hs | done].
Qed.

Lemma exec_body_app (pre post : list stmt) (v r0 r1 : gmap string gval) :
  exec_body pre v r0 = Success r1 ->
  exec_body (pre ++ post) v r0 = exec_body post v r1.
Proof.
  revert r0. induction pre as [|s pre IH]; intros r0 Hpre; simpl in *.
  - congruence.
  - destruct (exec_stmt s v r0); try done. by apply IH.
Qed.

Lemma stmt_field_emit (f : gen_Field) : stmt_field (emit_field f) = f.
Proof. unfold emit_field. by repeat case_match. Qed.

Lemma body_members (fields : list gen_Field) :
  map (fun s => member (stmt_field s)) (map emit_field fields) = map member fields.
Proof.
  rewrite map_map. apply map_ext. intros f. by rewrite stmt_field_emit.
Qed.


(** **** The emitted method, step by step *)

Lemma FromRows_unfold (T : gen_Type) :
  exists dests,
    dests.*1 = map member (Fields T)
    /\ typed_args (decode_one T) = Some (("ID", scanned_id_type T) :: dests)
    /\ forall cols r,
         FromRows T cols r
         = match rows_Scan (("ID", scanned_id_type T) :: dests) cols with
           | inr e => Failure (SqlError e) r
           | inl v =>
               match exec_id (id_rhs (decode_one T)) v r with
               | Some r' => exec_body (map emit_field (Fields T)) v r'
               | None => IllTyped
               end
           end.
Proof.
  destruct (typed_args_decode_one T) as (dests & Hargs & Hfst).
  exists dests. split; [done|]. split; [done|].
  intros cols r. unfold FromRows, run_decode_one. by rewrite Hargs.
Qed.

Lemma rows_Scan_id (dests : list (string * string)) (ty : string) (c : gval)
    (cols : list gval) (v : gmap string gval) :
  rows_Scan (("ID", ty) :: dests) (c :: cols) = inl v ->
  "ID" ∉ dests.*1 ->
  exists x, convertAssign ty c = inl x /\ v !! "ID" = Some x.
Proof.
  unfold rows_Scan. case_decide; [|done]. simpl.
  destruct (convertAssign ty c) as [x|e]; [|done].
  intros Hscan Hnot. exists x. split; [done|].
  rewrite (scan_columns_other _ _ _ _ _ _ Hscan Hnot). apply lookup_insert_eq.
Qed.

(** C1: the emitted [rows.Scan] has one destination for the identifier,
    first, and one for each field, in the order of [Fields]: [1 + len(fields)]
    destinations.  The method fails with the arity error of [rows.Scan] on a
    row with another number of columns, so that whenever it returns [nil] it
    has scanned exactly [1 + len(fields)] columns; and when the member names
    are distinct, the column [j] is converted to the declared type of the
    [j]-th destination and stored there. *)
Theorem decode_one_scan_order (T : gen_Type) (cols : list gval)
    (r : gmap string gval) :
  scan_args (decode_one T) = "ID" :: map member (Fields T)
  /\ length (scan_args (decode_one T)) = 1 + length (Fields T)
  /\ (length cols <> 1 + length (Fields T) ->
      FromRows T cols r
      = Failure (SqlError (ArityMismatch (length cols) (1 + length (Fields T)))) r)
  /\ (forall r', FromRows T cols r = Success r' ->
      length cols = 1 + length (Fields T))
  /\ (NoDup (scan_args (decode_one T)) ->
      typed_args (decode_one T) = Some (scan_struct (decode_one T))
      /\ forall v j a c,
           rows_Scan (scan_struct (decode_one T)) cols = inl v ->
           scan_args (decode_one T) !! j = Some a -> cols !! j = Some c ->
           exists ty x, scan_struct (decode_one T) !! j = Some (a, ty)
                        /\ convertAssign ty c = inl x /\ v !! a = Some x).
Proof.
  destruct (FromRows_unfold T) as (dests & Hfst & Hargs & Hrun).
  assert (Hlen : length (("ID", scanned_id_type T) :: dests) = 1 + length (Fields T)).
  { simpl. f_equal. rewrite <- (length_fmap fst dests), Hfst. apply length_map. }
  split_and!.
  - reflexivity.
  - simpl. by rewrite length_map.
  - intros Hcols. rewrite Hrun, rows_Scan_arity; rewrite Hlen; done.
  - intros r' Hok. rewrite Hrun in Hok.
    destruct (rows_Scan _ cols) as [v|e] eqn:Hscan; [|done].
    apply rows_Scan_length in Hscan. by rewrite <- Hscan.
  - intros Hnodup. rewrite <- scan_struct_names in Hnodup.
    split.
    + unfold typed_args. rewrite <- scan_struct_names. by apply typed_args_nodup.
    + intros v j a c Hscan Ha Hc.
      rewrite <- scan_struct_names in Ha. rewrite list_lookup_fmap in Ha.
      destruct (scan_struct (decode_one T) !! j) as [[a' ty]|] eqn:Hj; [|done].
      simpl in Ha. injection Ha as ->.
      unfold rows_Scan in Hscan. case_decide; [|done].
      destruct (scan_columns_lookup _ _ _ _ _ _ _ _ _ Hscan Hnodup Hj Hc)
        as (x & Hconv & Hv).
      by exists ty, x.
Qed.

(** C4: when the identifier type is [string], the identifier column is
    scanned into an [int] and the receiver gets its decimal representation
    ([strconv.Itoa]; 42 gives ["42"]); for any other identifier type the
    column is scanned into that type and the scanned value is assigned as it
    is. *)
Theorem decode_one_identifier (T : gen_Type) (c : gval) (cols : list gval)
    (r r' : gmap string gval)
    (Hid : "ID" ∉ map member (Fields T))
    (Hrun : FromRows T (c :: cols) r = Success r') :
  (IsString (ID T) = true ->
     (scan_struct (decode_one T)) !! 0%nat = Some ("ID", "int")
     /\ exists z, convertAssign "int" c = inl (VInt z)
                  /\ r' !! "ID" = Some (VString (strconv_Itoa z)))
  /\ (IsString (ID T) = false ->
     (scan_struct (decode_one T)) !! 0%nat = Some ("ID", IDType (ID T))
     /\ exists x, convertAssign (IDType (ID T)) c = inl x /\ r' !! "ID" = Some x)
  /\ strconv_Itoa 42 = "42".
Proof.
  destruct (FromRows_unfold T) as (dests & Hfst & _ & Hunfold).
  rewrite Hunfold in Hrun.
  destruct (rows_Scan _ (c :: cols)) as [v|e] eqn:Hscan; [|done].
  apply rows_Scan_id in Hscan as (x & Hconv & Hv); [|by rewrite Hfst].
  destruct (exec_id (id_rhs (decode_one T)) v r) as [r0|] eqn:Hexec; [|done].
  assert (Hkeep : r' !! "ID" = r0 !! "ID").
  { apply (exec_body_other (map emit_field (Fields T)) v).
    - by rewrite Hrun.
    - by rewrite body_members. }
  unfold scanned_id_type in Hconv. unfold exec_id in Hexec. simpl in Hexec.
  rewrite Hv in Hexec.
  split_and!; [| |reflexivity]; intros Hstr; simpl; unfold scanned_id_type;
    rewrite Hstr in *; (split; [reflexivity|]).
  - destruct x; try done. injection Hexec as <-.
    exists z. split; [done|]. rewrite Hkeep. apply lookup_insert_eq.
  - injection Hexec as <-. exists x. split; [done|].
    rewrite Hkeep. apply lookup_insert_eq.
Qed.


Lemma exec_stmt_json (f : gen_Field) (value : string) (v r : gmap string gval) :
  v !! member f = Some (VBytes value) ->
  exec_stmt (Unmarshal f) v r
  = if (0 <? String.length value)%nat then
      match json_Unmarshal (FieldType f) value (r !! member f) with
      | (x, None) => Success (store (member f) x r)
      | (x, Some err) => Failure (unmarshal_error (Name f) err) (store (member f) x r)
      end
    else Success r.
Proof. intros Hv. simpl. by rewrite Hv. Qed.

Lemma length_pos_nonempty (value : string) :
  value <> EmptyString -> (0 <? String.length value)%nat = true.
Proof. destruct value; [done|]. reflexivity. Qed.

Lemma emit_field_json (f : gen_Field) :
  IsJSON f = true -> emit_field f = Unmarshal f.
Proof. intros Hjson. unfold emit_field. by rewrite Hjson. Qed.

Lemma exec_stmt_unmarshal_failure (f : gen_Field) (value : string)
    (v r : gmap string gval) (x : option gval) (err : error) :
  v !! member f = Some (VBytes value) -> value <> EmptyString ->
  json_Unmarshal (FieldType f) value (r !! member f) = (x, Some err) ->
  exec_stmt (Unmarshal f) v r
  = Failure (unmarshal_error (Name f) err) (store (member f) x r).
Proof.
  intros Hv Hne Hfail. rewrite (exec_stmt_json f value) by done.
  by rewrite length_pos_nonempty, Hfail.
Qed.

Lemma exec_body_unmarshal_failure (f : gen_Field) (value : string)
    (pre post : list gen_Field) (v r0 r : gmap string gval) (x : option gval)
    (err : error) :
  IsJSON f = true ->
  v !! member f = Some (VBytes value) -> value <> EmptyString ->
  exec_body (map emit_field pre) v r0 = Success r ->
  json_Unmarshal (FieldType f) value (r !! member f) = (x, Some err) ->
  exec_body (map emit_field (pre ++ f :: post)) v r0
  = Failure (unmarshal_error (Name f) err) (store (member f) x r).
Proof.
  intros Hjson Hv Hne Hpre Hfail. rewrite map_app.
  rewrite (exec_body_app _ _ _ _ _ Hpre). simpl map.
  rewrite (emit_field_json f Hjson). cbn [exec_body].
  by rewrite (exec_stmt_unmarshal_failure f value v r x err).
Qed.

(** C2: a JSON field is decoded by the statement that reads the scanned
    member as a byte buffer.  An empty buffer leaves the receiver as it is
    and raises no error; a buffer that is not empty is given to
    [json.Unmarshal] with the address of the field: if it fails with [err],
    the method returns the error [unmarshal field <name>: <err>], also when
    the statement is reached in the body of a method; if it succeeds, the
    field holds what [json.Unmarshal] stored. *)
Theorem decode_json_field (f : gen_Field) (value : string)
    (v r : gmap string gval)
    (Hjson : IsJSON f = true)
    (Hscan : v !! member f = Some (VBytes value)) :
  emit_field f = Unmarshal f
  /\ (forall v', final_state (exec_stmt (emit_field f) v' r) <> None ->
        exists b, v' !! member f = Some (VBytes b))
  /\ (value = EmptyString -> exec_stmt (emit_field f) v r = Success r)
  /\ (value <> EmptyString -> forall x err,
        json_Unmarshal (FieldType f) value (r !! member f) = (x, Some err) ->
        exec_stmt (emit_field f) v r
        = Failure (ErrorString ("unmarshal field " +:+ Name f +:+ ": " +:+ err))
                  (store (member f) x r)
        /\ forall pre post r0,
             exec_body (map emit_field pre) v r0 = Success r ->
             exec_body (map emit_field (pre ++ f :: post)) v r0
             = Failure (ErrorString ("unmarshal field " +:+ Name f +:+ ": " +:+ err))
                       (store (member f) x r))
  /\ (value <> EmptyString -> forall x,
        json_Unmarshal (FieldType f) value (r !! member f) = (x, None) ->
        exec_stmt (emit_field f) v r = Success (store (member f) x r)
        /\ store (member f) x r !! member f = x).
Proof.
  rewrite (emit_field_json f Hjson). split_and!.
  - reflexivity.
  - intros v'. simpl. destruct (v' !! member f) as [[]|]; try done. eauto.
  - intros ->. by rewrite (exec_stmt_json f EmptyString).
  - intros Hne x err Hfail. split.
    + by apply (exec_stmt_unmarshal_failure f value).
    + intros pre post r0 Hpre.
      by apply (exec_body_unmarshal_failure f value).
  - intros Hne x Hok. split; [|apply store_lookup_eq].
    rewrite (exec_stmt_json f value) by done.
    by rewrite length_pos_nonempty, Hok.
Qed.

(** C5: a nillable field that is neither JSON-structured (the first rule)
    nor time-like is scanned into the member declared with its nullable
    wrapper type.  When the wrapper is not valid the receiver is left as it
    is (the pointer stays unset); when it is valid the field is set to a
    pointer to a new cell that holds the value [NullTypeField] extracts, which
    is the value [x] inside the wrapper when [NullTypeField] is the
    extraction of that value. *)
Theorem decode_nillable_field (T : gen_Type) (f : gen_Field) (x : gval)
    (v r : gmap string gval)
    (Hjson : IsJSON f = false)
    (Hnil : Nillable f = true)
    (Htime : IsTime f = false)
    (Hfield : In f (Fields T))
    (Hunwrap : NullTypeField f (VNull true x) = x) :
  emit_field f = IfValid f
  /\ In (member f, NullType f) (scan_struct (decode_one T))
  /\ (forall v', final_state (exec_stmt (emit_field f) v' r) <> None ->
        exists valid y, v' !! member f = Some (VNull valid y))
  /\ (forall y, v !! member f = Some (VNull false y) ->
        exec_stmt (emit_field f) v r = Success r)
  /\ (forall y, v !! member f = Some (VNull true y) ->
        exec_stmt (emit_field f) v r
        = Success (<[member f := VPtr (NullTypeField f (VNull true y))]> r))
  /\ (v !! member f = Some (VNull true x) ->
        exec_stmt (emit_field f) v r = Success (<[member f := VPtr x]> r)
        /\ <[member f := VPtr x]> r !! member f = Some (VPtr x)).
Proof.
  assert (Hemit : emit_field f = IfValid f).
  { unfold emit_field. by rewrite Hjson, Hnil, Htime. }
  rewrite Hemit. split_and!.
  - reflexivity.
  - simpl. right. apply in_map_iff. by exists f.
  - intros v'. simpl. destruct (v' !! member f) as [[]|]; try done. eauto.
  - intros y Hv. simpl. by rewrite Hv.
  - intros y Hv. simpl. by rewrite Hv.
  - intros Hv. simpl. rewrite Hv, Hunwrap. split; [done|].
    apply lookup_insert_eq.
Qed.

(** C6: the statement of a field is chosen by the first rule that applies,
    in the order JSON-structured, nillable and time-like, nillable and not
    time-like, not nillable; exactly one rule is the chosen one, and the
    body has one statement per field, in the order of the fields.  The
    statements of the second and of the fourth rule have no validity branch:
    whatever the scanned member holds, the field is set, to a pointer to the
    scanned member (second rule) or to the converted scanned member (fourth
    rule). *)
Theorem decode_strategy_precedence (T : gen_Type) (f : gen_Field) (x : gval)
    (v r : gmap string gval) :
  select_strategy_spec f = Some (strategy_of (emit_field f))
  /\ (forall s, applies s f = true <-> strategy_of (emit_field f) = s)
  /\ emit_field f
     = match strategy_of (emit_field f) with
       | JSON => Unmarshal f
       | NillableTime => AddressOf f
       | NillableOther => IfValid f
       | Plain => Assign f
       end
  /\ body (decode_one T) = map emit_field (Fields T)
  /\ length (body (decode_one T)) = length (Fields T)
  /\ (strategy_of (emit_field f) = NillableTime ->
      v !! member f = Some x ->
      exec_stmt (emit_field f) v r = Success (<[member f := VPtr x]> r))
  /\ (strategy_of (emit_field f) = Plain ->
      v !! member f = Some x ->
      exec_stmt (emit_field f) v r = Success (<[member f := NullTypeField f x]> r)).
Proof.
  split_and!.
  - unfold select_strategy_spec, emit_field.
    destruct (IsJSON f), (Nillable f), (IsTime f); reflexivity.
  - intros s. unfold applies, emit_field.
    destruct s, (IsJSON f), (Nillable f), (IsTime f); simpl; split; done.
  - unfold emit_field. destruct (IsJSON f), (Nillable f), (IsTime f); reflexivity.
  - reflexivity.
  - simpl. apply length_map.
  - unfold emit_field.
    destruct (IsJSON f), (Nillable f), (IsTime f); simpl; try done.
    by intros _ ->.
  - unfold emit_field.
    destruct (IsJSON f), (Nillable f), (IsTime f); simpl; try done;
    by intros _ ->.
Qed.

(** C9: the method is not atomic.  When the statement of the JSON field [f]
    fails, after the statements of the fields [pre] before it, the method
    returns the error and leaves the receiver in the state [r1] that the
    assignment of the identifier and the statements of [pre] produced (with
    in the member of [f] whatever [json.Unmarshal] left there): every other
    member is as in [r1], and the identifier is the one that was assigned. *)
Theorem decode_one_not_atomic (T : gen_Type) (pre post : list gen_Field)
    (f : gen_Field) (cols : list gval) (dests : list (string * string))
    (value : string) (v r r0 r1 : gmap string gval) (x : option gval)
    (err : error)
    (Hfields : Fields T = pre ++ f :: post)
    (Hjson : IsJSON f = true)
    (Hargs : typed_args (decode_one T) = Some dests)
    (Hscan : rows_Scan dests cols = inl v)
    (Hid : exec_id (id_rhs (decode_one T)) v r = Some r0)
    (Hpre : exec_body (map emit_field pre) v r0 = Success r1)
    (Hbuf : v !! member f = Some (VBytes value))
    (Hvalue : value <> EmptyString)
    (Hfail : json_Unmarshal (FieldType f) value (r1 !! member f) = (x, Some err)) :
  FromRows T cols r
  = Failure (unmarshal_error (Name f) err) (store (member f) x r1)
  /\ (forall m, m <> member f -> store (member f) x r1 !! m = r1 !! m)
  /\ (exists idv, r0 = <["ID" := idv]> r
        /\ ("ID" ∉ map member (pre ++ [f]) ->
            store (member f) x r1 !! "ID" = Some idv)).
Proof.
  split_and!.
  - unfold FromRows, run_decode_one. rewrite Hargs, Hscan, Hid.
    cbn [body decode_one]. rewrite Hfields.
    by apply (exec_body_unmarshal_failure f value).
  - intros m Hne. by apply store_lookup_ne.
  - unfold exec_id in Hid.
    assert (exists idv, r0 = <["ID" := idv]> r) as [idv ->].
    { destruct (id_rhs (decode_one T)), (v !! "ID") as [[]|]; try done;
        injection Hid as <-; eauto. }
    exists idv. split; [done|].
    intros Hnot. rewrite map_app in Hnot. apply not_elem_of_app in Hnot as [Hpre' Hf].
    rewrite store_lookup_ne by set_solver.
    rewrite (exec_body_other (map emit_field pre) v (<["ID" := idv]> r) r1).
    + apply lookup_insert_eq.
    + by rewrite Hpre.
    + by rewrite body_members.
Qed.

End DecodeOne.

Section DecodeMany.
Context `{GenPkg} `{GoLibs}.

Lemma FromRows_many_good (T : gen_Type) (good : list (list gval))
    (recs r : list (gmap string gval)) (rest : list (list gval)) :
  Forall2 (fun cols rec => FromRows T cols ∅ = Success rec) good recs ->
  FromRows_many T (good ++ rest) r = FromRows_many T rest (r ++ recs).
Proof.
  intros Hgood. revert r.
  induction Hgood as [|cols rec good recs Hrow _ IH]; intros r; simpl.
  - by rewrite app_nil_r.
  - rewrite Hrow, IH. by rewrite <- app_assoc.
Qed.

(** C3: the method of the slice decodes one record per row of the cursor,
    each into a new record, and appends it to the slice, in the order of the
    cursor; it returns [nil] when the cursor has no more rows.  At the first
    row whose decode fails it returns that error at once: the rows after it
    play no role, and the slice keeps the records appended so far. *)
Theorem decode_many_rows (T : gen_Type) (good rest : list (list gval))
    (bad : list gval) (recs r : list (gmap string gval)) (e : go_error)
    (s : gmap string gval)
    (Hgood : Forall2 (fun cols rec => FromRows T cols ∅ = Success rec) good recs)
    (Hbad : FromRows T bad ∅ = Failure e s) :
  FromRows_many T [] r = Success r
  /\ FromRows_many T good r = Success (r ++ recs)
  /\ length recs = length good
  /\ FromRows_many T (good ++ bad :: rest) r = Failure e (r ++ recs).
Proof.
  split_and!.
  - reflexivity.
  - rewrite <- (app_nil_r good). by rewrite (FromRows_many_good T good recs).
  - symmetry. by eapply Forall2_length.
  - rewrite (FromRows_many_good T good recs) by done. simpl. by rewrite Hbad.
Qed.

End DecodeMany.

(** **** The theorems at the example entity *)

Lemma decode_one_scan_order_witness :
  scan_args (@decode_one toy_gen_pkg example_user)
  = ["ID"; "Age"; "Nick"; "Tags"; "Seen"]
  /\ @FromRows toy_gen_pkg toy_go_libs example_user [VInt 42; VInt 30] ∅
     = Failure (SqlError (ArityMismatch 2 5)) ∅.
Proof.
  destruct (@decode_one_scan_order toy_gen_pkg toy_go_libs example_user
              [VInt 42; VInt 30] ∅)
    as (Hargs & _ & Harity & _).
  split; [exact Hargs|].
  apply Harity. simpl. lia.
Defined.

Lemma decode_json_field_witness :
  @exec_stmt toy_gen_pkg toy_go_libs (emit_field tags_field)
    {[ "Tags" := VBytes "oops" ]} ∅
  = Failure (ErrorString "unmarshal field tags: invalid character") ∅.
Proof.
  destruct (@decode_json_field toy_gen_pkg toy_go_libs tags_field "oops"
              {[ "Tags" := VBytes "oops" ]} ∅)
    as (_ & _ & _ & Hfail & _).
  - reflexivity.
  - reflexivity.
  - destruct (Hfail ltac:(discriminate) None "invalid character" eq_refl)
      as [Hstmt _].
    exact Hstmt.
Defined.

Lemma decode_many_rows_witness :
  @FromRows_many toy_gen_pkg toy_go_libs example_user
    ([row_ann; row_bob; row_ann] ++ row_bad :: [row_bob]) []
  = Failure (ErrorString "unmarshal field tags: invalid character")
      ([] ++ map (fun cols => decoded (@FromRows toy_gen_pkg toy_go_libs
                                         example_user cols ∅))
                 [row_ann; row_bob; row_ann]).
Proof.
  destruct (@decode_many_rows toy_gen_pkg toy_go_libs example_user
              [row_ann; row_bob; row_ann] [row_bob] row_bad
              (map (fun cols => decoded (@FromRows toy_gen_pkg toy_go_libs
                                           example_user cols ∅))
                   [row_ann; row_bob; row_ann])
              []
              (ErrorString "unmarshal field tags: invalid character")
              (decoded (Success (<["Nick" := VPtr (VString "eve")]>
                                   (<["Age" := VInt 32]>
                                      (<["ID" := VString "44"]> ∅))))))
    as (_ & _ & _ & Hfail).
  - repeat constructor; vm_compute; reflexivity.
  - vm_compute. reflexivity.
  - exact Hfail.
Defined.

Lemma decode_one_identifier_witness :
  decoded (@FromRows toy_gen_pkg toy_go_libs example_user row_ann ∅) !! "ID"
  = Some (VString "42")
  /\ decoded (@FromRows toy_gen_pkg toy_go_libs example_user64 row_ann ∅) !! "ID"
     = Some (VInt 42).
Proof.
  split.
  - destruct (@decode_one_identifier toy_gen_pkg toy_go_libs example_user
                (VInt 42) [VInt 30; VString "ann"; VBytes "[1]"; VTime 7] ∅
                (decoded (@FromRows toy_gen_pkg toy_go_libs example_user row_ann ∅)))
      as (Hstring & _ & _).
    + vm_compute. intros Hin.
      repeat (apply elem_of_cons in Hin as [Hin|Hin]; [discriminate Hin|]).
      inversion Hin.
    + vm_compute. reflexivity.
    + destruct (Hstring eq_refl) as (_ & z & Hconv & Hid).
      injection Hconv as <-. exact Hid.
  - destruct (@decode_one_identifier toy_gen_pkg toy_go_libs example_user64
                (VInt 42) [VInt 30; VString "ann"; VBytes "[1]"; VTime 7] ∅
                (decoded (@FromRows toy_gen_pkg toy_go_libs example_user64 row_ann ∅)))
      as (_ & Hother & _).
    + vm_compute. intros Hin.
      repeat (apply elem_of_cons in Hin as [Hin|Hin]; [discriminate Hin|]).
      inversion Hin.
    + vm_compute. reflexivity.
    + destruct (Hother eq_refl) as (_ & x & Hconv & Hid).
      injection Hconv as <-. exact Hid.
Defined.

Lemma decode_nillable_field_witness :
  @exec_stmt toy_gen_pkg toy_go_libs (emit_field nick_field)
    {[ "Nick" := VNull true (VString "ann") ]} ∅
  = Success {[ "Nick" := VPtr (VString "ann") ]}
  /\ @exec_stmt toy_gen_pkg toy_go_libs (emit_field nick_field)
       {[ "Nick" := VNull false VNil ]} ∅
     = Success ∅.
Proof.
  destruct (@decode_nillable_field toy_gen_pkg toy_go_libs example_user
              nick_field (VString "ann")
              {[ "Nick" := VNull true (VString "ann") ]} ∅)
    as (_ & _ & _ & _ & _ & Hvalid).
  - reflexivity.
  - reflexivity.
  - reflexivity.
  - simpl. right. left. reflexivity.
  - reflexivity.
  - destruct (@decode_nillable_field toy_gen_pkg toy_go_libs example_user
                nick_field (VString "ann")
                {[ "Nick" := VNull false VNil ]} ∅)
      as (_ & _ & _ & Hinvalid & _).
    + reflexivity.
    + reflexivity.
    + reflexivity.
    + simpl. right. left. reflexivity.
    + reflexivity.
    + destruct (Hvalid eq_refl) as [Hstmt _].
      split; [exact Hstmt | exact (Hinvalid VNil eq_refl)].
Defined.

Lemma decode_strategy_precedence_witness :
  map (fun f => strategy_of (emit_field f)) (Fields example_user)
  = [Plain; NillableOther; JSON; NillableTime]
  /\ @exec_stmt toy_gen_pkg toy_go_libs (emit_field seen_field)
       {[ "Seen" := VTime 7 ]} ∅
     = Success {[ "Seen" := VPtr (VTime 7) ]}.
Proof.
  split; [reflexivity|].
  destruct (@decode_strategy_precedence toy_gen_pkg toy_go_libs example_user
              seen_field (VTime 7) {[ "Seen" := VTime 7 ]} ∅)
    as (_ & _ & _ & _ & _ & Htime & _).
  exact (Htime eq_refl eq_refl).
Defined.

Lemma decode_one_not_atomic_witness :
  @FromRows toy_gen_pkg toy_go_libs example_user row_bad ∅
  = Failure (ErrorString "unmarshal field tags: invalid character")
      (<["Nick" := VPtr (VString "eve")]>
         (<["Age" := VInt 32]> (<["ID" := VString "44"]> ∅)))
  /\ (<["Nick" := VPtr (VString "eve")]>
         (<["Age" := VInt 32]> (<["ID" := VString "44"]> ∅)) : gmap string gval)
     !! "ID" = Some (VString "44").
Proof.
  destruct (@decode_one_not_atomic toy_gen_pkg toy_go_libs example_user
              [age_field; nick_field] [seen_field] tags_field row_bad
              (scan_struct (@decode_one toy_gen_pkg example_user))
              "oops"
              (<["Seen" := VTime 9]>
                 (<["Tags" := VBytes "oops"]>
                    (<["Nick" := VNull true (VString "eve")]>
                       (<["Age" := VNull true (VInt 32)]>
                          (<["ID" := VInt 44]> ∅)))))
              ∅
              (<["ID" := VString "44"]> ∅)
              (<["Nick" := VPtr (VString "eve")]>
                 (<["Age" := VInt 32]> (<["ID" := VString "44"]> ∅)))
              None "invalid character")
    as (Hrun & _ & _).
  - reflexivity.
  - reflexivity.
  - vm_compute. reflexivity.
  - vm_compute. reflexivity.
  - vm_compute. reflexivity.
  - vm_compute. reflexivity.
  - vm_compute. reflexivity.
  - discriminate.
  - vm_compute. reflexivity.
  - split; [|vm_compute; reflexivity].
    exact Hrun.
Defined.

End DecodeFacts.
